(** * Selection controller of the [Home] page (src/pages/Home.tsx)

    The component keeps two React state cells, [selectedCharacterId]
    (a [number | null]) and [grayedOutCards] (a [Set<number>]), and reads
    the imported catalog [characters].  Two handlers write the cells:
    [handleCharacterSelect] and [handleReset].  A handler runs against the
    values captured by the last render and only enqueues [setState]
    requests; React then applies the queue, in call order, to the cells.
    The development follows that shape: handlers return the queue they
    enqueue, [flush] applies it. *)

From stdpp Require Import gmap strings list.

Open Scope Z_scope.

(** ** Data *)

(** One entry of [characters.json]: the page reads [character.id] and
    [character.path]. *)
Record Character := mkCharacter { id : Z; path : string }.

(** What [useState]'s setter accepts: a plain value or an updater applied
    to the previous value. *)
Inductive SetStateAction (S : Type) : Type :=
| Value (v : S)
| Updater (f : S → S).
Arguments Value {S} v.
Arguments Updater {S} f.

Definition applyAction {S : Type} (a : SetStateAction S) (prev : S) : S :=
  match a with
  | Value v => v
  | Updater f => f prev
  end.

(** The page as a handler sees it: the imported catalog and the two
    state cells. *)
Record Home := mkHome {
  characters : list Character;
  selectedCharacterId : option Z;
  grayedOutCards : gset Z
}.

(** A call to one of the two setters. No setter exists for [characters]. *)
Inductive dispatch : Type :=
| setSelectedCharacterId (a : SetStateAction (option Z))
| setGrayedOutCards (a : SetStateAction (gset Z)).

Definition applyDispatch (h : Home) (d : dispatch) : Home :=
  match d with
  | setSelectedCharacterId a =>
      mkHome (characters h) (applyAction a (selectedCharacterId h)) (grayedOutCards h)
  | setGrayedOutCards a =>
      mkHome (characters h) (selectedCharacterId h) (applyAction a (grayedOutCards h))
  end.

(** React applies the enqueued requests in the order of the calls. *)
Definition flush (h : Home) (queue : list dispatch) : Home :=
  fold_left applyDispatch queue h.

(** [useState(null)] and [useState(new Set())] on mount. *)
Definition mount (catalog : list Character) : Home :=
  mkHome catalog None ∅.

(** ** Handlers *)

(** The updater passed to [setGrayedOutCards]: copy [prev], then delete
    [id] when present and add it otherwise. *)
Definition toggleGrayed (id : Z) (prev : gset Z) : gset Z :=
  let newSet := prev in
  if decide (id ∈ newSet) then newSet ∖ {[ id ]} else newSet ∪ {[ id ]}.

Definition handleCharacterSelect (h : Home) (id : Z) : list dispatch :=
  match selectedCharacterId h with
  | None => [setSelectedCharacterId (Value (Some id))]
  | Some cur =>
      if decide (id ≠ cur)
      then [setGrayedOutCards (Updater (toggleGrayed id))]
      else []
  end.

Definition handleReset : list dispatch :=
  [setSelectedCharacterId (Value None); setGrayedOutCards (Value ∅)].

(** One handled click, from the render that captured [h] to the next. *)
Definition select (h : Home) (id : Z) : Home :=
  flush h (handleCharacterSelect h id).

Definition reset (h : Home) : Home :=
  flush h handleReset.

(** ** Derived values of a render *)

(** [arr[n]] on a JS array: the element when [n] is an index of the
    array, [undefined] otherwise. *)
Definition js_index {A : Type} (arr : list A) (n : Z) : option A :=
  if decide (0 ≤ n) then arr !! Z.to_nat n else None.

(** The three shapes of [selectedCharacter]. *)
Inductive Selected : Type :=
| JsNull
| JsUndefined
| JsItem (c : Character).

Definition selectedCharacter (h : Home) : Selected :=
  match selectedCharacterId h with
  | Some n =>
      match js_index (characters h) n with
      | Some c => JsItem c
      | None => JsUndefined
      end
  | None => JsNull
  end.

(** [selectedCharacterId === character.id] and
    [grayedOutCards.has(character.id)] in the grid. *)
Definition isSelected (h : Home) (n : Z) : bool :=
  bool_decide (selectedCharacterId h = Some n).

Definition isGrayedOut (h : Home) (n : Z) : bool :=
  bool_decide (n ∈ grayedOutCards h).

(** ** Event sequences *)

Inductive event : Type :=
| Click (id : Z)
| ResetClick.

Definition step (h : Home) (e : event) : Home :=
  match e with
  | Click n => select h n
  | ResetClick => reset h
  end.

Definition run (h : Home) (es : list event) : Home :=
  fold_left step es h.

(** [n] handled clicks on the same card. *)
Fixpoint selectN (n : nat) (id : Z) (h : Home) : Home :=
  match n with
  | O => h
  | S k => selectN k id (select h id)
  end.

(** States a mounted page can be in. *)
Inductive reachable (catalog : list Character) : Home → Prop :=
| reach_mount : reachable catalog (mount catalog)
| reach_select h n : reachable catalog h → reachable catalog (select h n)
| reach_reset h : reachable catalog h → reachable catalog (reset h).

(** Every entry sits at the position its [id] names. *)
Definition positional (catalog : list Character) : Prop :=
  ∀ (i : nat) (c : Character), catalog !! i = Some c → id c = Z.of_nat i.

(** What every state of a mounted page satisfies (shown below). *)
Record consistent (catalog : list Character) (h : Home) : Prop := {
  cons_catalog : characters h = catalog;
  cons_open : selectedCharacterId h = None → grayedOutCards h = ∅;
  cons_locked : ∀ L, selectedCharacterId h = Some L → L ∉ grayedOutCards h
}.

(** A catalog of the documented shape: 24 cards, ids [0..23] in order.
    The image paths of [characters.json] play no part in the handlers. *)
Definition sampleCatalog : list Character :=
  (λ i : nat, mkCharacter (Z.of_nat i) "card") <$> seq 0 24.

(** ** The rendered page *)

(** One [<button>] of the grid, as far as it depends on the state: its
    React key, the image source, which branch of the two class
    conditionals it takes, [disabled], the glow overlay and the event its
    [onClick] hands to the click handler. *)
Record Card := mkCard {
  key : Z;
  src : string;
  ringed : bool;
  dimmed : bool;
  disabled : bool;
  glow : bool;
  onClick : event
}.

(** The body of [characters.map((character) => ...)]. *)
Definition renderCard (h : Home) (character : Character) : Card :=
  let sel := isSelected h (id character) in
  let gray := isGrayedOut h (id character) in
  mkCard (id character) (path character) sel gray sel sel (Click (id character)).

(** [selectedCharacter ? ... : ...]: an item is truthy, [null] and
    [undefined] are not. *)
Definition truthy (s : Selected) : option Character :=
  match s with
  | JsItem c => Some c
  | JsNull | JsUndefined => None
  end.

(** The state-dependent parts of what [Home] returns: the line under the
    title, the Reset button (present or not), the featured image (or the
    placeholder), the grid title, the grid and the closing hint. *)
Record View := mkView {
  subtitle : string;
  resetButton : option event;
  featured : option Character;
  gridTitle : string;
  cards : list Card;
  instructions : bool
}.

Definition render (h : Home) : View :=
  mkView
    (match selectedCharacterId h with
     | None => "Click any character to select"
     | Some _ => "Character selected and locked"
     end)
    (match selectedCharacterId h with
     | Some _ => Some ResetClick
     | None => None
     end)
    (truthy (selectedCharacter h))
    (match selectedCharacterId h with
     | None => "Choose Your Character"
     | Some _ => "Exclude Other Characters"
     end)
    (renderCard h <$> characters h)
    (bool_decide (selectedCharacterId h ≠ None)).

(** The events a user can raise on a rendered page: the Reset button when
    it is there, and every card button that is not [disabled]. *)
Definition clickable (v : View) : list event :=
  option_list (resetButton v)
  ++ (onClick <$> filter (λ c, disabled c = false) (cards v)).

(** States a user can bring the mounted page to. *)
Inductive ui_reachable (catalog : list Character) : Home → Prop :=
| ui_mount : ui_reachable catalog (mount catalog)
| ui_step h e :
    ui_reachable catalog h → e ∈ clickable (render h) →
    ui_reachable catalog (step h e).

(** How many clicks of a sequence landed on card [z]. *)
Definition clicksOn (z : Z) (ids : list Z) : nat :=
  length (filter (λ i, i = z) ids).

(** * Properties *)

(** ** Scenarios of the specification, replayed *)

Example scenario_A :
  let h1 := run (mount sampleCatalog) [Click 5] in
  let h2 := run h1 [Click 5] in
  let h3 := run h2 [Click 7] in
  let h4 := run h3 [Click 7] in
  let h5 := run h4 [Click 9] in
  let h6 := run h5 [ResetClick] in
  (selectedCharacterId h1, grayedOutCards h1) = (Some 5, ∅) ∧
  h2 = h1 ∧
  grayedOutCards h3 = {[ 7 ]} ∧
  grayedOutCards h4 = ∅ ∧
  grayedOutCards h5 = {[ 9 ]} ∧
  h6 = mount sampleCatalog.
Proof. vm_compute. repeat split; reflexivity. Qed.

Example scenario_B :
  selectedCharacterId <$>
    [run (mount sampleCatalog) [Click 3];
     run (mount sampleCatalog) [Click 3; Click 3];
     run (mount sampleCatalog) [Click 3; Click 3; Click 3]]
  = [Some 3; Some 3; Some 3].
Proof. reflexivity. Qed.

Example scenario_C :
  run (mount sampleCatalog) [Click 0; ResetClick; Click 1]
  = mkHome sampleCatalog (Some 1) ∅.
Proof. reflexivity. Qed.

(** A lock outside the catalog indexes past the array: [undefined]. *)
Example selectedCharacter_out_of_range :
  selectedCharacter (select (mount sampleCatalog) 99) = JsUndefined
  ∧ selectedCharacter (select (mount sampleCatalog) (-1)) = JsUndefined.
Proof. split; reflexivity. Qed.

Example sampleCatalog_positional : positional sampleCatalog.
Proof.
  intros i c H. unfold sampleCatalog in H.
  apply list_lookup_fmap_Some in H as (j & -> & Hj).
  apply lookup_seq in Hj as [-> _]. reflexivity.
Qed.

(** ** The handlers, case by case *)

Section Transitions.
Implicit Types (h : Home) (g : gset Z) (x y L : Z).

Lemma select_cases h x :
  select h x =
    match selectedCharacterId h with
    | None => mkHome (characters h) (Some x) (grayedOutCards h)
    | Some L =>
        if decide (x = L) then h
        else mkHome (characters h) (Some L) (toggleGrayed x (grayedOutCards h))
    end.
Proof.
  destruct h as [cat [L|] g]; unfold select, handleCharacterSelect; simpl.
  - repeat case_decide; done.
  - done.
Qed.

Lemma select_open h x :
  selectedCharacterId h = None →
  select h x = mkHome (characters h) (Some x) (grayedOutCards h).
Proof. intros E. by rewrite select_cases, E. Qed.

Lemma select_self h L :
  selectedCharacterId h = Some L → select h L = h.
Proof. intros E. rewrite select_cases, E. by rewrite decide_True. Qed.

Lemma select_other h L y :
  selectedCharacterId h = Some L → y ≠ L →
  select h y = mkHome (characters h) (Some L) (toggleGrayed y (grayedOutCards h)).
Proof. intros E N. rewrite select_cases, E. by rewrite decide_False. Qed.

Lemma reset_mount h : reset h = mount (characters h).
Proof. reflexivity. Qed.

Lemma select_locked_id h y :
  selectedCharacterId (select h y) = Some (default y (selectedCharacterId h)).
Proof.
  rewrite select_cases. destruct (selectedCharacterId h) as [L|] eqn:E; simpl.
  - by case_decide.
  - done.
Qed.

Lemma flush_characters h (queue : list dispatch) :
  characters (flush h queue) = characters h.
Proof.
  revert h. induction queue as [|d queue IH]; intros h; [done|].
  unfold flush in *. simpl. rewrite IH. by destruct d.
Qed.

(** Membership after one toggle. *)
Lemma elem_of_toggleGrayed y z g :
  z ∈ toggleGrayed y g ↔ (z = y ∧ y ∉ g) ∨ (z ≠ y ∧ z ∈ g).
Proof.
  unfold toggleGrayed. simpl. case_decide as D;
    [rewrite elem_of_difference | rewrite elem_of_union];
    rewrite elem_of_singleton;
    destruct (decide (z = y)) as [->|N]; tauto.
Qed.

Lemma toggleGrayed_twice y g : toggleGrayed y (toggleGrayed y g) = g.
Proof.
  apply set_eq. intros z. rewrite !elem_of_toggleGrayed.
  destruct (decide (z = y)) as [->|N]; [|tauto].
  destruct (decide (y ∈ g)); tauto.
Qed.

Lemma isGrayedOut_select_other h L y :
  selectedCharacterId h = Some L → y ≠ L →
  isGrayedOut (select h y) y = negb (isGrayedOut h y).
Proof.
  intros E N. rewrite (select_other h L y E N). unfold isGrayedOut. simpl.
  destruct (decide (y ∈ grayedOutCards h)) as [Hin|Hout].
  - rewrite (bool_decide_eq_true_2 _ Hin). simpl.
    apply bool_decide_eq_false_2. rewrite elem_of_toggleGrayed. tauto.
  - rewrite (bool_decide_eq_false_2 _ Hout). simpl.
    apply bool_decide_eq_true_2. rewrite elem_of_toggleGrayed. tauto.
Qed.

(** A run of clicks alone keeps an established lock. *)
Lemma run_clicks_locked h L (ids : list Z) :
  selectedCharacterId h = Some L →
  selectedCharacterId (run h (Click <$> ids)) = Some L.
Proof.
  revert h. induction ids as [|y ids IH]; intros h E; [done|].
  simpl. apply IH. by rewrite select_locked_id, E.
Qed.
(** A click on [y] leaves the membership of every other id alone,
    whatever the state. *)
Lemma isGrayedOut_select_frame (h : Home) (y z : Z) :
  z ≠ y → isGrayedOut (select h y) z = isGrayedOut h z.
Proof.
  intros N. rewrite select_cases.
  destruct (selectedCharacterId h) as [L|]; [|done].
  case_decide; [done|]. unfold isGrayedOut. simpl.
  apply bool_decide_ext. rewrite elem_of_toggleGrayed. tauto.
Qed.

Lemma selectN_run h y (n : nat) :
  selectN n y h = run h (Click <$> replicate n y).
Proof.
  revert h. induction n as [|n IH]; intros h; [done|].
  simpl. apply IH.
Qed.

Lemma clicksOn_replicate y (n : nat) : clicksOn y (replicate n y) = n.
Proof.
  unfold clicksOn. induction n as [|n IH]; [done|].
  simpl. rewrite filter_cons_True by done. simpl. by rewrite IH.
Qed.
End Transitions.

(** ** What holds in every state of a mounted page *)

Lemma reachable_consistent catalog h :
  reachable catalog h → consistent catalog h.
Proof.
  induction 1 as [|h n _ IH|h _ IH].
  - by split.
  - rewrite select_cases. pose proof IH as [Hc Ho Hl].
    destruct (selectedCharacterId h) as [L|] eqn:E.
    + case_decide as D; [exact IH|].
      split; simpl; [done..|].
      intros L' [= <-]. rewrite elem_of_toggleGrayed.
      specialize (Hl L eq_refl). intuition congruence.
    + split; simpl; [done..|].
      intros L' [= <-]. rewrite Ho by done. apply not_elem_of_empty.
  - rewrite reset_mount. destruct IH as [Hc _ _]. by split.
Qed.

Lemma reachable_run catalog h (es : list event) :
  reachable catalog h → reachable catalog (run h es).
Proof.
  revert h. induction es as [|[n|] es IH]; intros h R; simpl; [done|..];
    apply IH; by constructor.
Qed.

(** ** The lock *)

(** C1. For every non-empty sequence of clicks handled from the freshly
    mounted page with no reset in between, [selectedCharacterId] ends up
    being the id of the first click, however many clicks follow.  More
    generally one click never changes an existing lock and never leaves the
    lock empty: it yields the old lock when there is one and the clicked id
    otherwise, so a click cannot bring [selectedCharacterId] back to
    [null]. *)
Theorem lock_is_first_click (catalog : list Character) (x : Z) (rest : list Z) :
  selectedCharacterId (run (mount catalog) (Click <$> x :: rest)) = Some x
  ∧ (∀ (h : Home) (y : Z),
       selectedCharacterId (select h y) = Some (default y (selectedCharacterId h)))
  ∧ (∀ (h : Home) (y : Z), selectedCharacterId (select h y) ≠ None).
Proof.
  split; [|split].
  - change (Click <$> x :: rest) with (Click x :: (Click <$> rest)).
    simpl. apply run_clicks_locked. reflexivity.
  - apply select_locked_id.
  - intros h y. by rewrite select_locked_id.
Qed.

(** C2. In every state reachable from the mounted page by clicks and
    resets the locked id is not in [grayedOutCards]; and from such a state
    with lock [L], no sequence of clicks puts [L] into the set. *)
Theorem locked_never_grayed (catalog : list Character) (h : Home) (L : Z) :
  reachable catalog h →
  selectedCharacterId h = Some L →
  (L ∉ grayedOutCards h)
  ∧ (∀ ids : list Z, L ∉ grayedOutCards (run h (Click <$> ids))).
Proof.
  intros R E.
  assert (G : ∀ ids : list Z, L ∉ grayedOutCards (run h (Click <$> ids))).
  { intros ids.
    apply (cons_locked catalog).
    - apply reachable_consistent. by apply reachable_run.
    - by apply run_clicks_locked. }
  split; [apply (G [])|exact G].
Qed.

Lemma locked_never_grayed_witness :
  let h := select (select (select (mount sampleCatalog) 5) 7) 5 in
  reachable sampleCatalog h
  ∧ selectedCharacterId h = Some 5
  ∧ (5 ∉ grayedOutCards h)
  ∧ (∀ ids : list Z, 5 ∉ grayedOutCards (run h (Click <$> ids))).
Proof.
  intros h.
  assert (R : reachable sampleCatalog h) by (repeat constructor).
  assert (E : selectedCharacterId h = Some 5) by reflexivity.
  split; [exact R|]. split; [exact E|].
  exact (locked_never_grayed sampleCatalog h 5 R E).
Defined.

(** C3. From a reachable state with no lock, a click on [x] yields the
    state locked on [x] with an empty [grayedOutCards]. *)
Theorem select_from_open (catalog : list Character) (h : Home) (x : Z) :
  reachable catalog h →
  selectedCharacterId h = None →
  select h x = mkHome catalog (Some x) ∅
  ∧ selectedCharacterId (select h x) = Some x
  ∧ grayedOutCards (select h x) = ∅.
Proof.
  intros R E. destruct (reachable_consistent catalog h R) as [Hc Ho _].
  rewrite (select_open h x E), Hc, (Ho E). done.
Qed.

Lemma select_from_open_witness :
  let h := reset (select (select (mount sampleCatalog) 2) 4) in
  reachable sampleCatalog h
  ∧ selectedCharacterId h = None
  ∧ select h 9 = mkHome sampleCatalog (Some 9) ∅
  ∧ selectedCharacterId (select h 9) = Some 9
  ∧ grayedOutCards (select h 9) = ∅.
Proof.
  intros h.
  assert (R : reachable sampleCatalog h) by (repeat constructor).
  assert (E : selectedCharacterId h = None) by reflexivity.
  split; [exact R|]. split; [exact E|].
  exact (select_from_open sampleCatalog h 9 R E).
Defined.

(** ** Toggling *)

(** C4. With lock [L] active and [y ≠ L], take any sequence of clicks with
    no reset in between, on [y] and on whatever other cards.  The lock
    stays on [L] after every click of the sequence, and the membership of
    [y] in [grayedOutCards] at the end is what it was when an even number
    of the clicks landed on [y], and the opposite when that number is odd.
    In particular [n] clicks on [y] in a row keep it for even [n] and
    flip it for odd [n]. *)
Theorem toggle_parity (h : Home) (L y : Z) (ids : list Z) :
  selectedCharacterId h = Some L →
  y ≠ L →
  (∀ k : nat, selectedCharacterId (run h (Click <$> take k ids)) = Some L)
  ∧ isGrayedOut (run h (Click <$> ids)) y
    = (if Nat.even (clicksOn y ids)
       then isGrayedOut h y else negb (isGrayedOut h y))
  ∧ (∀ n : nat,
       selectedCharacterId (selectN n y h) = Some L
       ∧ isGrayedOut (selectN n y h) y
         = (if Nat.even n then isGrayedOut h y else negb (isGrayedOut h y))).
Proof.
  intros E N.
  assert (G : ∀ (l : list Z) (h0 : Home),
            selectedCharacterId h0 = Some L →
            isGrayedOut (run h0 (Click <$> l)) y
            = (if Nat.even (clicksOn y l)
               then isGrayedOut h0 y else negb (isGrayedOut h0 y))).
  { induction l as [|z l IH]; intros h0 E0; [done|].
    assert (E1 : selectedCharacterId (select h0 z) = Some L)
      by (by rewrite select_locked_id, E0).
    change (run h0 (Click <$> z :: l)) with (run (select h0 z) (Click <$> l)).
    rewrite (IH _ E1). unfold clicksOn. rewrite filter_cons.
    destruct (decide (z = y)) as [->|Nzy].
    - cbn [length]. rewrite Nat.even_succ, <- Nat.negb_even.
      rewrite (isGrayedOut_select_other h0 L y E0 N).
      by destruct (Nat.even _), (isGrayedOut h0 y).
    - by rewrite (isGrayedOut_select_frame h0 z y) by done. }
  split; [|split].
  - intros k. by apply run_clicks_locked.
  - by apply G.
  - intros n. rewrite selectN_run. split.
    + by apply run_clicks_locked.
    + by rewrite (G _ h E), clicksOn_replicate.
Qed.

Lemma toggle_parity_witness :
  let h := select (mount sampleCatalog) 5 in
  (selectedCharacterId (run h (Click <$> [7; 9; 7])) = Some 5
   ∧ isGrayedOut (run h (Click <$> [7; 9; 7])) 7 = isGrayedOut h 7
   ∧ isGrayedOut (run h (Click <$> [7; 9; 7])) 9 = negb (isGrayedOut h 9))
  ∧ (let g := mkHome sampleCatalog (Some 5) {[ 9 ]} in
     isGrayedOut (selectN 3 7 g) 7 = negb (isGrayedOut g 7)
     ∧ isGrayedOut (selectN 4 9 g) 9 = isGrayedOut g 9).
Proof.
  intros h. split.
  - destruct (toggle_parity h 5 7 [7; 9; 7] eq_refl ltac:(lia)) as (Hl & H7 & _).
    destruct (toggle_parity h 5 9 [7; 9; 7] eq_refl ltac:(lia)) as (_ & H9 & _).
    split; [exact (Hl 3%nat)|]. split; [exact H7 | exact H9].
  - intros g. split.
    + destruct (toggle_parity g 5 7 [] eq_refl ltac:(lia)) as (_ & _ & Hn).
      exact (proj2 (Hn 3%nat)).
    + destruct (toggle_parity g 5 9 [] eq_refl ltac:(lia)) as (_ & _ & Hn).
      exact (proj2 (Hn 4%nat)).
Defined.

(** ** Clicking the same card twice *)

(** C5, as stated, fails: on the sample catalog, lock 0 and then click
    card 1 once or twice.  One click grays card 1 out, the second click
    takes it out again, so the two states differ. *)
Lemma double_click_differs :
  let h := select (mount sampleCatalog) 0 in
  (∃ c, c ∈ characters h ∧ id c = 1)
  ∧ grayedOutCards (select h 1) = {[ 1 ]}
  ∧ grayedOutCards (select (select h 1) 1) = ∅
  ∧ select (select h 1) 1 ≠ select h 1.
Proof.
  intros h. split; [|split; [|split]].
  - exists (mkCharacter 1 "card"). split; [|reflexivity].
    apply list_elem_of_lookup. exists 1%nat. reflexivity.
  - reflexivity.
  - reflexivity.
  - intros Heq. apply (f_equal (λ s, isGrayedOut s 1)) in Heq.
    vm_compute in Heq. discriminate Heq.
Qed.

(** C5, amended. When the starting state has no lock, or is locked on [L]
    already, two clicks on [L] give the same state as one; and a click on
    the locked id changes nothing at all. *)
Theorem double_click_on_lock (h : Home) (L : Z) :
  selectedCharacterId h = None ∨ selectedCharacterId h = Some L →
  select (select h L) L = select h L
  ∧ (selectedCharacterId h = Some L → select h L = h).
Proof.
  intros H. split.
  - apply select_self. rewrite select_locked_id. by destruct H as [-> | ->].
  - apply select_self.
Qed.

Lemma double_click_on_lock_witness :
  (select (select (mount sampleCatalog) 3) 3 = select (mount sampleCatalog) 3)
  ∧ (let h := mkHome sampleCatalog (Some 3) {[ 8 ]} in
     select (select h 3) 3 = select h 3 ∧ select h 3 = h).
Proof.
  split.
  - apply (double_click_on_lock (mount sampleCatalog) 3). left. reflexivity.
  - intros h.
    destruct (double_click_on_lock h 3 (or_intror eq_refl)) as [H1 H2].
    split; [exact H1 | exact (H2 eq_refl)].
Defined.

(** ** Reset *)

(** C6. From any state whatever, reset gives the state of the freshly
    mounted page: no lock and an empty [grayedOutCards].  Reset is a total
    function, and resetting twice is the same as resetting once. *)
Theorem reset_total (h : Home) :
  reset h = mount (characters h)
  ∧ selectedCharacterId (reset h) = None
  ∧ grayedOutCards (reset h) = ∅
  ∧ reset (reset h) = reset h.
Proof. repeat split. Qed.

(** ** The featured character *)

(** C7. On a catalog whose entry at position [i] has id [i],
    [selectedCharacter] is [null] when there is no lock, and with lock [L]
    it is an item [c] exactly when [c] is the catalog item whose id is
    [L]. *)
Theorem selectedCharacter_by_id (h : Home) :
  positional (characters h) →
  (selectedCharacterId h = None → selectedCharacter h = JsNull)
  ∧ (∀ (L : Z) (c : Character),
       selectedCharacterId h = Some L →
       (selectedCharacter h = JsItem c ↔ c ∈ characters h ∧ id c = L)).
Proof.
  intros P. unfold selectedCharacter. split.
  - by intros ->.
  - intros L c ->. unfold js_index. split.
    + case_decide as Hge; [|done].
      destruct (characters h !! Z.to_nat L) as [c'|] eqn:E; [|done].
      intros [= ->]. split.
      * apply list_elem_of_lookup. eauto.
      * rewrite (P _ _ E). lia.
    + intros [Hin Hid]. apply list_elem_of_lookup in Hin as [i Hi].
      assert (L = Z.of_nat i) as -> by (rewrite <- Hid; exact (P _ _ Hi)).
      rewrite decide_True by lia. rewrite Nat2Z.id, Hi. done.
Qed.

Lemma selectedCharacter_by_id_witness :
  let h := select (mount sampleCatalog) 5 in
  positional (characters h)
  ∧ selectedCharacter h = JsItem (mkCharacter 5 "card")
  ∧ selectedCharacter (mount sampleCatalog) = JsNull.
Proof.
  intros h. split; [exact sampleCatalog_positional|]. split.
  - destruct (selectedCharacter_by_id h sampleCatalog_positional) as [_ H].
    apply (H 5); [reflexivity|].
    split; [|reflexivity].
    apply list_elem_of_lookup. exists 5%nat. reflexivity.
  - destruct (selectedCharacter_by_id (mount sampleCatalog)
                sampleCatalog_positional) as [H _].
    apply H. reflexivity.
Defined.

(** ** Ids outside the catalog *)

(** C8. The click handler never consults the catalog.  For an id [x] that
    no catalog entry carries, a click is handled by the same three rules as
    for any other id and yields a state (no error case exists); the two
    state cells it produces are those it would produce over any other
    catalog.  So [x] becomes the lock when there is none, and is added to
    [grayedOutCards] when another id is locked and [x] is not yet in the
    set. *)
Theorem select_outside_catalog (h : Home) (x : Z) :
  (∀ c : Character, c ∈ characters h → id c ≠ x) →
  select h x =
    match selectedCharacterId h with
    | None => mkHome (characters h) (Some x) (grayedOutCards h)
    | Some L =>
        if decide (x = L) then h
        else mkHome (characters h) (Some L) (toggleGrayed x (grayedOutCards h))
    end
  ∧ (∀ catalog' : list Character,
       let h' := select (mkHome catalog' (selectedCharacterId h) (grayedOutCards h)) x in
       selectedCharacterId h' = selectedCharacterId (select h x)
       ∧ grayedOutCards h' = grayedOutCards (select h x))
  ∧ (selectedCharacterId h = None → selectedCharacterId (select h x) = Some x)
  ∧ (∀ L : Z, selectedCharacterId h = Some L → x ≠ L →
       x ∉ grayedOutCards h → x ∈ grayedOutCards (select h x)).
Proof.
  intros _. split; [apply select_cases|]. split; [|split].
  - intros catalog'. simpl. rewrite !select_cases.
    destruct h as [cat [L|] g]; simpl; [|done].
    case_decide; split; reflexivity.
  - intros E. by rewrite select_locked_id, E.
  - intros L E N Hout. rewrite (select_other h L x E N). simpl.
    rewrite elem_of_toggleGrayed. tauto.
Qed.

Lemma select_outside_catalog_witness :
  let h := select (mount sampleCatalog) 0 in
  (∀ c : Character, c ∈ sampleCatalog → id c ≠ 99)
  ∧ selectedCharacterId (select (mount sampleCatalog) 99) = Some 99
  ∧ 99 ∈ grayedOutCards (select h 99).
Proof.
  intros h.
  assert (A : ∀ c : Character, c ∈ sampleCatalog → id c ≠ 99).
  { intros c Hc. unfold sampleCatalog in Hc.
    apply list_elem_of_fmap in Hc as (i & -> & Hi).
    apply elem_of_seq in Hi. simpl. lia. }
  split; [exact A|]. split.
  - destruct (select_outside_catalog (mount sampleCatalog) 99 A) as (_ & _ & H & _).
    apply H. reflexivity.
  - destruct (select_outside_catalog h 99 A) as (_ & _ & _ & H).
    apply (H 0); [reflexivity | lia | apply not_elem_of_empty].
Defined.

(** ** No lock, nothing grayed out *)

(** C9. In every state reachable from the mounted page, no lock implies an
    empty [grayedOutCards].  The click that sets the lock plays no part in
    that: on a state without lock it leaves whatever set [g] it finds. *)
Theorem open_means_none_grayed
    (catalog : list Character) (h : Home) (g : gset Z) (x : Z) :
  reachable catalog h →
  selectedCharacterId h = None →
  grayedOutCards h = ∅
  ∧ grayedOutCards (select (mkHome catalog None g) x) = g.
Proof.
  intros R E. split.
  - exact (cons_open catalog h (reachable_consistent catalog h R) E).
  - reflexivity.
Qed.

Lemma open_means_none_grayed_witness :
  let h := reset (select (select (mount sampleCatalog) 5) 7) in
  reachable sampleCatalog h
  ∧ selectedCharacterId h = None
  ∧ grayedOutCards h = ∅
  ∧ grayedOutCards (select (mkHome sampleCatalog None {[ 7 ]}) 5) = {[ 7 ]}.
Proof.
  intros h.
  assert (R : reachable sampleCatalog h) by (repeat constructor).
  assert (E : selectedCharacterId h = None) by reflexivity.
  split; [exact R|]. split; [exact E|].
  exact (open_means_none_grayed sampleCatalog h {[ 7 ]} 5 R E).
Defined.

(** ** The catalog *)

(** C10. Neither handler writes the catalog: after a click, after a reset,
    and after any sequence of both, [characters] is what it was.  The two
    state cells are all that can differ. *)
Theorem catalog_untouched (h : Home) :
  (∀ x : Z, characters (select h x) = characters h)
  ∧ characters (reset h) = characters h
  ∧ (∀ e : event, characters (step h e) = characters h)
  ∧ (∀ es : list event, characters (run h es) = characters h).
Proof.
  assert (S : ∀ (h : Home) (e : event), characters (step h e) = characters h).
  { intros h0 [x|]; apply flush_characters. }
  split; [intros x; apply (S h (Click x))|].
  split; [apply (S h ResetClick)|].
  split; [apply S|].
  intros es. revert h. induction es as [|e es IH]; intros h; [done|].
  simpl. by rewrite IH, S.
Qed.

(** * Further properties of the page *)

(** ** Shared facts *)

Lemma run_characters (h : Home) (es : list event) :
  characters (run h es) = characters h.
Proof.
  revert h. induction es as [|e es IH]; intros h; [done|].
  simpl. rewrite IH. destruct e; apply flush_characters.
Qed.

Lemma run_app (h : Home) (es1 es2 : list event) :
  run h (es1 ++ es2) = run (run h es1) es2.
Proof. apply fold_left_app. Qed.

Lemma toggleGrayed_comm (y z : Z) (g : gset Z) :
  toggleGrayed y (toggleGrayed z g) = toggleGrayed z (toggleGrayed y g).
Proof.
  destruct (decide (y = z)) as [->|N]; [done|].
  apply set_eq. intros w. rewrite !elem_of_toggleGrayed.
  destruct (decide (w = y)) as [Ey|Ny], (decide (w = z)) as [Ez|Nz];
    intuition congruence.
Qed.

Lemma select_comm (h : Home) (L y z : Z) :
  selectedCharacterId h = Some L →
  select (select h y) z = select (select h z) y.
Proof.
  intros E. destruct h as [cat lock g]. simpl in E. subst lock.
  rewrite !select_cases. simpl.
  destruct (decide (y = L)) as [->|Ny], (decide (z = L)) as [->|Nz]; simpl;
    rewrite ?decide_True by done; rewrite ?decide_False by done; simpl;
    rewrite ?decide_True by done; rewrite ?decide_False by done; try done.
  by rewrite toggleGrayed_comm.
Qed.

(** ** Clicks under a lock *)

(** With lock [L] in place, two clicks on another card [y] bring back the
    very state they started from: catalog, lock and set. *)
Theorem select_twice_restores (h : Home) (L y : Z) :
  selectedCharacterId h = Some L →
  y ≠ L →
  select (select h y) y = h.
Proof.
  intros E N.
  rewrite (select_other (select h y) L y), (select_other h L y E N); simpl.
  - rewrite toggleGrayed_twice. destruct h as [cat lock g].
    simpl in E. by subst lock.
  - by rewrite select_locked_id, E.
  - done.
Qed.

Lemma select_twice_restores_witness :
  let h := mkHome sampleCatalog (Some 5) {[ 7; 9 ]} in
  select (select h 7) 7 = h ∧ select (select h 11) 11 = h.
Proof.
  intros h. split.
  - apply (select_twice_restores h 5 7); [reflexivity | lia].
  - apply (select_twice_restores h 5 11); [reflexivity | lia].
Defined.

(** Once a lock is in place the order of the clicks that follow is
    irrelevant: two click sequences that are rearrangements of each other
    end in the same state. *)
Theorem clicks_order_irrelevant (h : Home) (L : Z) (ids1 ids2 : list Z) :
  selectedCharacterId h = Some L →
  ids1 ≡ₚ ids2 →
  run h (Click <$> ids1) = run h (Click <$> ids2).
Proof.
  intros E P. revert h E.
  induction P as [|x l1 l2 _ IH|x y l|l1 l2 l3 _ IH1 _ IH2]; intros h E.
  - done.
  - simpl. apply IH. by rewrite select_locked_id, E.
  - simpl. by rewrite (select_comm h L y x E).
  - by rewrite (IH1 h E), (IH2 h E).
Qed.

Lemma clicks_order_irrelevant_witness :
  let h := select (mount sampleCatalog) 5 in
  run h (Click <$> [7; 9; 5; 7; 3]) = run h (Click <$> [3; 7; 5; 7; 9]).
Proof.
  intros h.
  apply (clicks_order_irrelevant h 5); [reflexivity|].
  apply (bool_decide_unpack _). vm_compute. exact I.
Defined.

(** Which cards are grayed out after any sequence of clicks under lock
    [L]: a card other than [L] has changed sides exactly when an odd number
    of the clicks landed on it, and [L] itself never changes sides. *)
Theorem grayed_after_clicks (h : Home) (L z : Z) (ids : list Z) :
  selectedCharacterId h = Some L →
  isGrayedOut (run h (Click <$> ids)) z
  = xorb (isGrayedOut h z) (bool_decide (z ≠ L) && Nat.odd (clicksOn z ids)).
Proof.
  intros E. revert h E.
  induction ids as [|y ids IH]; intros h E.
  - simpl. by rewrite andb_false_r, xorb_false_r.
  - assert (E' : selectedCharacterId (select h y) = Some L)
      by (by rewrite select_locked_id, E).
    change (run h (Click <$> y :: ids)) with (run (select h y) (Click <$> ids)).
    rewrite (IH _ E'). unfold clicksOn. rewrite filter_cons.
    destruct (decide (y = z)) as [->|Nyz].
    + destruct (decide (z = L)) as [->|NzL].
      * rewrite (select_self h L E).
        by rewrite (bool_decide_eq_false_2 (L ≠ L)) by (intros ?; done).
      * rewrite (isGrayedOut_select_other h L z E NzL).
        rewrite (bool_decide_eq_true_2 _ NzL). cbn [andb length].
        rewrite Nat.odd_succ, <- Nat.negb_odd.
        by destruct (isGrayedOut h z), (Nat.odd _).
    + by rewrite (isGrayedOut_select_frame h y z) by done.
Qed.

Lemma grayed_after_clicks_witness :
  let h := select (mount sampleCatalog) 5 in
  isGrayedOut (run h (Click <$> [7; 9; 7; 5; 7])) 7 = true
  ∧ isGrayedOut (run h (Click <$> [7; 9; 7; 5; 9])) 9 = false
  ∧ isGrayedOut (run h (Click <$> [7; 5; 5; 5])) 5 = false.
Proof.
  intros h. split; [|split].
  - rewrite (grayed_after_clicks h 5 7); reflexivity.
  - rewrite (grayed_after_clicks h 5 9); reflexivity.
  - rewrite (grayed_after_clicks h 5 5); reflexivity.
Defined.

(** Each click on a card other than the locked one changes the number of
    grayed-out cards by exactly one: down when the card was grayed out, up
    when it was not. *)
Theorem select_size (h : Home) (L y : Z) :
  selectedCharacterId h = Some L →
  y ≠ L →
  size (grayedOutCards (select h y))
  = if isGrayedOut h y
    then (size (grayedOutCards h) - 1)%nat
    else (size (grayedOutCards h) + 1)%nat.
Proof.
  intros E N. rewrite (select_other h L y E N). simpl.
  unfold toggleGrayed, isGrayedOut. simpl.
  destruct (decide (y ∈ grayedOutCards h)) as [Hin|Hout].
  - rewrite (bool_decide_eq_true_2 _ Hin).
    rewrite size_difference, size_singleton; [done|].
    by apply singleton_subseteq_l.
  - rewrite (bool_decide_eq_false_2 _ Hout).
    rewrite size_union, size_singleton; [done|].
    by apply disjoint_singleton_r.
Qed.

Lemma select_size_witness :
  let h := mkHome sampleCatalog (Some 5) {[ 7; 9 ]} in
  size (grayedOutCards (select h 7)) = 1%nat
  ∧ size (grayedOutCards (select h 11)) = 3%nat.
Proof.
  intros h. split.
  - rewrite (select_size h 5 7); [reflexivity | reflexivity | lia].
  - rewrite (select_size h 5 11); [reflexivity | reflexivity | lia].
Defined.

(** ** Reset in a sequence *)

(** A reset wipes out whatever came before it: the state after any
    sequence of events containing a reset is the state reached from the
    freshly mounted page by the events after that reset. *)
Theorem reset_erases_history (h : Home) (es1 es2 : list event) :
  run h (es1 ++ ResetClick :: es2) = run (mount (characters h)) es2.
Proof.
  rewrite run_app. simpl. by rewrite reset_mount, run_characters.
Qed.

(** ** Two clicks against one render *)

(** The toggle is written as an updater on the previous set, so under a
    lock it does not depend on the render the handler closed over: the
    requests of two clicks handled against the same render, applied
    together, give the state of the two clicks handled one after the
    other. *)
Theorem toggles_batch (h : Home) (L y z : Z) :
  selectedCharacterId h = Some L →
  flush h (handleCharacterSelect h y ++ handleCharacterSelect h z)
  = select (select h y) z.
Proof.
  intros E. destruct h as [cat lock g]. simpl in E. subst lock.
  unfold select, handleCharacterSelect. simpl.
  destruct (decide (y ≠ L)), (decide (z ≠ L)); simpl;
    repeat case_decide; done.
Qed.

Lemma toggles_batch_witness :
  let h := select (mount sampleCatalog) 5 in
  grayedOutCards
    (flush h (handleCharacterSelect h 7 ++ handleCharacterSelect h 9))
  = {[ 7; 9 ]}.
Proof.
  intros h. rewrite (toggles_batch h 5 7 9); reflexivity.
Defined.

(** ** What the rendered page offers *)

Lemma elem_of_clickable (h : Home) (e : event) :
  e ∈ clickable (render h) ↔
    (e = ResetClick ∧ selectedCharacterId h ≠ None)
    ∨ (∃ c : Character,
         c ∈ characters h ∧ e = Click (id c) ∧ selectedCharacterId h ≠ Some (id c)).
Proof.
  unfold clickable, render. cbn [resetButton cards].
  rewrite elem_of_app, list_elem_of_fmap. split.
  - intros [Hr|(card & -> & Hcard)].
    + left. destruct (selectedCharacterId h); simpl in Hr.
      * apply list_elem_of_singleton in Hr. done.
      * by apply elem_of_nil in Hr.
    + right. apply list_elem_of_filter in Hcard as [Hd Hcard].
      apply list_elem_of_fmap in Hcard as (c & -> & Hc).
      exists c. split; [done|]. split; [done|].
      simpl in Hd. unfold isSelected in Hd.
      by apply bool_decide_eq_false_1 in Hd.
  - intros [[-> Hl]|(c & Hc & -> & Hl)].
    + left. destruct (selectedCharacterId h); [|done].
      simpl. by apply list_elem_of_singleton.
    + right. exists (renderCard h c). split; [done|].
      apply list_elem_of_filter. split.
      * simpl. unfold isSelected. by apply bool_decide_eq_false_2.
      * apply list_elem_of_fmap. eauto.
Qed.

Lemma ui_reachable_reachable (catalog : list Character) (h : Home) :
  ui_reachable catalog h → reachable catalog h.
Proof.
  induction 1 as [|h e _ IH _]; [constructor|].
  destruct e; simpl; by constructor.
Qed.

Lemma ui_reachable_ids (catalog : list Character) (h : Home) :
  ui_reachable catalog h →
  (∀ L : Z, selectedCharacterId h = Some L → L ∈ id <$> catalog)
  ∧ (∀ y : Z, y ∈ grayedOutCards h → y ∈ id <$> catalog).
Proof.
  induction 1 as [|h e R [IHl IHg] He].
  - split; [done|]. intros y Hy. by apply not_elem_of_empty in Hy.
  - pose proof (cons_catalog _ _ (reachable_consistent _ _
      (ui_reachable_reachable _ _ R))) as Hcat.
    apply elem_of_clickable in He as [[-> _]|(c & Hc & -> & Hl)].
    + cbn [step]. rewrite reset_mount. split; [done|].
      intros y Hy. by apply not_elem_of_empty in Hy.
    + assert (Hid : id c ∈ id <$> catalog).
      { apply list_elem_of_fmap. exists c. by rewrite <- Hcat. }
      cbn [step]. rewrite select_cases.
      destruct (selectedCharacterId h) as [L|] eqn:E.
      * rewrite decide_False by congruence. simpl. split; [exact IHl|].
        intros y Hy. apply elem_of_toggleGrayed in Hy as [[-> _]|[_ Hy]];
          [done | by apply IHg].
      * simpl. split; [by intros L [= <-] | exact IHg].
Qed.

(** Nothing a user can do on the page breaks the click handler's
    assumption that ids come from the catalog: in every state reached
    through the rendered buttons, the lock and every grayed-out id are ids
    of catalog entries. *)
Theorem ui_ids_in_catalog (catalog : list Character) (h : Home) :
  ui_reachable catalog h →
  (∀ L : Z, selectedCharacterId h = Some L →
     ∃ c : Character, c ∈ catalog ∧ id c = L)
  ∧ (∀ y : Z, y ∈ grayedOutCards h →
       ∃ c : Character, c ∈ catalog ∧ id c = y).
Proof.
  intros R. destruct (ui_reachable_ids catalog h R) as [Hl Hg].
  split.
  - intros L E. apply Hl, list_elem_of_fmap in E as (c & -> & Hc). eauto.
  - intros y Hy. apply Hg, list_elem_of_fmap in Hy as (c & -> & Hc). eauto.
Qed.

(** Finds the pressed button among those of a concrete render. *)
Ltac press :=
  apply list_elem_of_In; vm_compute;
  repeat (first [left; reflexivity | right]).

Lemma ui_ids_in_catalog_witness :
  let h := step (step (step (mount sampleCatalog) (Click 5)) (Click 7)) (Click 9) in
  ui_reachable sampleCatalog h
  ∧ (∃ c : Character, c ∈ sampleCatalog ∧ id c = 5)
  ∧ (∃ c : Character, c ∈ sampleCatalog ∧ id c = 9).
Proof.
  intros h.
  assert (R : ui_reachable sampleCatalog h).
  { repeat (apply ui_step; [|press]). apply ui_mount. }
  split; [exact R|].
  destruct (ui_ids_in_catalog sampleCatalog h R) as [Hl Hg].
  split.
  - apply Hl. reflexivity.
  - apply Hg. apply (bool_decide_unpack _). vm_compute. exact I.
Defined.

(** ** The featured character *)

(** The placeholder is shown in place of the featured image exactly when
    there is no lock or the lock is not an index of the catalog array
    (negative, or at or past its length): then [characters[...]] is
    [undefined], which the conditional treats like [null]. *)
Theorem featured_placeholder_iff (h : Home) :
  featured (render h) = None ↔
    selectedCharacterId h = None
    ∨ (∃ n : Z, selectedCharacterId h = Some n
                ∧ (n < 0 ∨ Z.of_nat (length (characters h)) ≤ n)).
Proof.
  unfold render, selectedCharacter, js_index. cbn [featured].
  destruct (selectedCharacterId h) as [n|]; [|simpl; tauto].
  case_decide as Hge.
  - destruct (characters h !! Z.to_nat n) as [c|] eqn:E; simpl.
    + apply lookup_lt_Some in E. split; [done|].
      intros [?|(m & [= <-] & [?|?])]; [done|lia..].
    + apply lookup_ge_None in E. split; [|done].
      intros _. right. exists n. split; [done|]. right. lia.
  - simpl. split; [|done]. intros _. right. exists n. split; [done|]. lia.
Qed.

(** On a catalog whose entries sit at the positions their ids name, the
    page a user can reach always features the locked card: with a lock
    the featured image is the catalog entry carrying the locked id, and
    without one the placeholder is shown. *)
Theorem featured_is_locked_card (catalog : list Character) (h : Home) :
  positional catalog →
  ui_reachable catalog h →
  match selectedCharacterId h with
  | None => featured (render h) = None
  | Some L =>
      ∃ c : Character, featured (render h) = Some c ∧ c ∈ catalog ∧ id c = L
  end.
Proof.
  intros P R.
  pose proof (cons_catalog _ _ (reachable_consistent _ _
    (ui_reachable_reachable _ _ R))) as Hcat.
  destruct (ui_reachable_ids catalog h R) as [Hl _].
  unfold render, selectedCharacter. cbn [featured].
  destruct (selectedCharacterId h) as [L|]; [|done].
  pose proof (Hl L eq_refl) as Hin.
  apply list_elem_of_fmap in Hin as (c & Hid & Hc).
  apply list_elem_of_lookup in Hc as [i Hi].
  pose proof (P i c Hi) as Hpos.
  exists c. unfold js_index. rewrite decide_True by lia.
  replace (Z.to_nat L) with i by lia. rewrite Hcat, Hi. simpl.
  split; [done|]. split; [|done]. apply list_elem_of_lookup. eauto.
Qed.

Lemma featured_is_locked_card_witness :
  let h := step (step (mount sampleCatalog) (Click 5)) (Click 7) in
  positional sampleCatalog
  ∧ ui_reachable sampleCatalog h
  ∧ ∃ c : Character,
      featured (render h) = Some c ∧ c ∈ sampleCatalog ∧ id c = 5.
Proof.
  intros h.
  assert (R : ui_reachable sampleCatalog h).
  { repeat (apply ui_step; [|press]). apply ui_mount. }
  split; [exact sampleCatalog_positional|]. split; [exact R|].
  exact (featured_is_locked_card sampleCatalog h sampleCatalog_positional R).
Defined.

(** ** Buttons and what they would do *)

(** A card button is disabled exactly when a click on it would change
    nothing: the handler's own test for the locked card and the
    [disabled] attribute single out the same card.  Every button left
    enabled changes the state when pressed. *)
Theorem card_disabled_iff_noop (h : Home) (card : Card) :
  card ∈ cards (render h) →
  (disabled card = true ↔ step h (onClick card) = h).
Proof.
  unfold render. cbn [cards]. intros Hcard.
  apply list_elem_of_fmap in Hcard as (c & -> & _).
  cbn [renderCard disabled onClick step]. unfold isSelected.
  rewrite bool_decide_eq_true, select_cases.
  destruct h as [cat [L|] g]; cbn [selectedCharacterId characters grayedOutCards].
  - split.
    + intros [= ->]. by rewrite decide_True.
    + case_decide as D; [by subst|].
      intros Heq. exfalso.
      assert (Hg : toggleGrayed (id c) g = g) by congruence.
      assert (Hiff := elem_of_toggleGrayed (id c) (id c) g).
      rewrite Hg in Hiff. tauto.
  - split; intros H; discriminate H.
Qed.

Lemma card_disabled_iff_noop_witness :
  let h := select (mount sampleCatalog) 5 in
  step h (Click 5) = h ∧ step h (Click 7) ≠ h.
Proof.
  intros h.
  assert (M : ∀ n : nat, (n < 24)%nat →
            renderCard h (mkCharacter (Z.of_nat n) "card") ∈ cards (render h)).
  { intros n Hn. unfold render. cbn [cards].
    apply list_elem_of_fmap. eexists. split; [reflexivity|].
    apply list_elem_of_fmap. exists n. split; [reflexivity|].
    apply elem_of_seq. lia. }
  split.
  - apply (card_disabled_iff_noop h _ (M 5%nat ltac:(lia))). reflexivity.
  - intros Heq.
    apply (card_disabled_iff_noop h _ (M 7%nat ltac:(lia))) in Heq.
    discriminate Heq.
Defined.

(** On a page reached by clicks and resets, the Reset button is left out
    exactly when a reset would change nothing. *)
Theorem reset_hidden_iff_noop (catalog : list Character) (h : Home) :
  reachable catalog h →
  (resetButton (render h) = None ↔ reset h = h).
Proof.
  intros R. destruct (reachable_consistent catalog h R) as [Hc Ho _].
  rewrite reset_mount. unfold render. cbn [resetButton].
  destruct h as [cat [L|] g]; cbn in *.
  - split; intros H; discriminate H.
  - split; [|done]. intros _. unfold mount. by rewrite Ho.
Qed.

Lemma reset_hidden_iff_noop_witness :
  let h := reset (select (select (mount sampleCatalog) 5) 7) in
  reachable sampleCatalog h ∧ resetButton (render h) = None ∧ reset h = h.
Proof.
  intros h.
  assert (R : reachable sampleCatalog h) by (repeat constructor).
  split; [exact R|]. split; [reflexivity|].
  apply (reset_hidden_iff_noop sampleCatalog h R). reflexivity.
Defined.

(** ** The grid *)

(** The highlighted card is never shown dimmed: on a page reached by
    clicks and resets, no card of the grid takes both the ring and the
    grayscale styling. *)
Theorem locked_card_not_dimmed (catalog : list Character) (h : Home) (card : Card) :
  reachable catalog h →
  card ∈ cards (render h) →
  ringed card = true →
  dimmed card = false.
Proof.
  intros R Hcard Hr. unfold render in Hcard. cbn [cards] in Hcard.
  apply list_elem_of_fmap in Hcard as (c & -> & _).
  cbn [renderCard ringed dimmed] in *. unfold isSelected, isGrayedOut in *.
  apply bool_decide_eq_true in Hr. apply bool_decide_eq_false.
  exact (cons_locked _ _ (reachable_consistent _ _ R) _ Hr).
Qed.

Lemma locked_card_not_dimmed_witness :
  let h := select (select (mount sampleCatalog) 5) 7 in
  let card := renderCard h (mkCharacter 5 "card") in
  reachable sampleCatalog h
  ∧ card ∈ cards (render h)
  ∧ ringed card = true
  ∧ dimmed card = false.
Proof.
  intros h card.
  assert (R : reachable sampleCatalog h) by (repeat constructor).
  assert (M : card ∈ cards (render h)).
  { unfold render. cbn [cards].
    apply list_elem_of_fmap. eexists. split; [reflexivity|].
    apply list_elem_of_fmap. exists 5%nat. split; [reflexivity|].
    apply elem_of_seq. lia. }
  split; [exact R|]. split; [exact M|]. split; [reflexivity|].
  exact (locked_card_not_dimmed sampleCatalog h card R M eq_refl).
Defined.

(** ** Counting cards *)

Lemma length_filter_fmap {A B : Type} (f : A → B)
    (P : B → Prop) `{!∀ b, Decision (P b)}
    (Q : A → Prop) `{!∀ a, Decision (Q a)} (l : list A) :
  (∀ a, P (f a) ↔ Q a) →
  length (filter P (f <$> l)) = length (filter Q l).
Proof.
  intros HPQ. induction l as [|a l IH]; [done|].
  rewrite fmap_cons, !filter_cons.
  destruct (decide (P (f a))) as [HP|HP], (decide (Q a)) as [HQ|HQ];
    simpl; rewrite ?IH; try done; exfalso; apply HPQ in HP || apply HPQ in HQ; done.
Qed.

Lemma count_id (l : list Character) (L : Z) :
  NoDup (id <$> l) →
  length (filter (λ c, id c = L) l)
  = if decide (L ∈ id <$> l) then 1%nat else 0%nat.
Proof.
  induction l as [|c l IH]; [done|].
  rewrite fmap_cons, NoDup_cons. intros [Hc Hl].
  rewrite filter_cons, (decide_ext _ _ _ _ (elem_of_cons (id <$> l) L (id c))).
  specialize (IH Hl).
  destruct (decide (id c = L)) as [<-|N].
  - simpl. rewrite IH, decide_False by done.
    by rewrite decide_True by (by left).
  - rewrite IH. destruct (decide (L ∈ id <$> l)) as [Hin|Hout].
    + by rewrite decide_True by (by right).
    + rewrite decide_False; [done|]. intros [?|?]; congruence.
Qed.

Lemma count_grayed (g : gset Z) (l : list Character) :
  NoDup (id <$> l) →
  length (filter (λ c, id c ∈ g) l) = size (g ∩ list_to_set (id <$> l)).
Proof.
  induction l as [|c l IH].
  - intros _. simpl. by rewrite intersection_empty_r_L, size_empty.
  - rewrite fmap_cons, NoDup_cons. intros [Hc Hl]. specialize (IH Hl).
    rewrite filter_cons, list_to_set_cons.
    assert (Hnot : id c ∉ g ∩ list_to_set (id <$> l)).
    { rewrite elem_of_intersection, elem_of_list_to_set. tauto. }
    destruct (decide (id c ∈ g)) as [Hin|Hout].
    + replace (g ∩ ({[id c]} ∪ list_to_set (id <$> l)))
        with ({[id c]} ∪ g ∩ list_to_set (id <$> l)).
      * rewrite size_union by (by apply disjoint_singleton_l).
        rewrite size_singleton. simpl. by rewrite IH.
      * apply set_eq. intros w.
        rewrite elem_of_union, !elem_of_intersection, elem_of_union,
          elem_of_singleton.
        split; [intros [->|[? ?]]; tauto | tauto].
    + rewrite IH. f_equal. apply set_eq. intros w.
      rewrite !elem_of_intersection, elem_of_union, elem_of_singleton.
      split; [tauto|]. intros [Hw [->|?]]; tauto.
Qed.

Lemma size_list_to_set_le (l : list Z) :
  (size (list_to_set l : gset Z) ≤ length l)%nat.
Proof.
  induction l as [|x l IH]; [by rewrite list_to_set_nil, size_empty|].
  rewrite list_to_set_cons, size_union_alt, size_singleton. simpl.
  assert (size (list_to_set l ∖ {[x]} : gset Z) ≤ size (list_to_set l : gset Z))%nat
    by (apply subseteq_size, subseteq_difference_l; done).
  lia.
Qed.

(** With catalog ids that are pairwise different, the grid highlights at
    most one card: exactly one when the lock is the id of a catalog entry,
    none when there is no lock or the lock is foreign to the catalog. *)
Theorem one_ringed_card (h : Home) :
  NoDup (id <$> characters h) →
  length (filter (λ card, ringed card = true) (cards (render h)))
  = match selectedCharacterId h with
    | Some L => if decide (L ∈ id <$> characters h) then 1%nat else 0%nat
    | None => 0%nat
    end.
Proof.
  intros ND. unfold render. cbn [cards].
  destruct (selectedCharacterId h) as [L|] eqn:E.
  - rewrite <- (count_id _ L ND). apply length_filter_fmap.
    intros c. cbn [renderCard ringed]. unfold isSelected.
    rewrite bool_decide_eq_true, E. split; congruence.
  - rewrite (length_filter_fmap _ _ (λ _, False)).
    + induction (characters h) as [|c l IH]; [done|].
      rewrite filter_cons_False by tauto.
      apply IH. by apply NoDup_cons in ND as [_ ?].
    + intros c. cbn [renderCard ringed]. unfold isSelected.
      rewrite bool_decide_eq_true, E. split; [discriminate | tauto].
Qed.

Lemma one_ringed_card_witness :
  length (filter (λ card, ringed card = true)
            (cards (render (select (mount sampleCatalog) 5)))) = 1%nat
  ∧ length (filter (λ card, ringed card = true)
              (cards (render (select (mount sampleCatalog) 99)))) = 0%nat.
Proof.
  assert (ND : NoDup (id <$> sampleCatalog))
    by (apply (bool_decide_unpack _); vm_compute; exact I).
  split.
  - rewrite (one_ringed_card (select (mount sampleCatalog) 5) ND). reflexivity.
  - rewrite (one_ringed_card (select (mount sampleCatalog) 99) ND). reflexivity.
Defined.

(** With catalog ids that are pairwise different, on any page a user can
    reach the number of dimmed cards in the grid is the number of ids in
    [grayedOutCards]: every grayed-out id shows, once. *)
Theorem dimmed_count (catalog : list Character) (h : Home) :
  NoDup (id <$> catalog) →
  ui_reachable catalog h →
  length (filter (λ card, dimmed card = true) (cards (render h)))
  = size (grayedOutCards h).
Proof.
  intros ND R.
  pose proof (cons_catalog _ _ (reachable_consistent _ _
    (ui_reachable_reachable _ _ R))) as Hcat.
  destruct (ui_reachable_ids catalog h R) as [_ Hg].
  unfold render. cbn [cards].
  rewrite (length_filter_fmap _ _ (λ c, id c ∈ grayedOutCards h)).
  - rewrite Hcat, (count_grayed _ _ ND). f_equal.
    apply set_eq. intros w. rewrite elem_of_intersection, elem_of_list_to_set.
    split; [tauto|]. intros Hw. split; [done | by apply Hg].
  - intros c. cbn [renderCard dimmed]. unfold isGrayedOut.
    by rewrite bool_decide_eq_true.
Qed.

Lemma dimmed_count_witness :
  let h := step (step (step (mount sampleCatalog) (Click 5)) (Click 7)) (Click 9) in
  NoDup (id <$> sampleCatalog)
  ∧ ui_reachable sampleCatalog h
  ∧ length (filter (λ card, dimmed card = true) (cards (render h))) = 2%nat.
Proof.
  intros h.
  assert (ND : NoDup (id <$> sampleCatalog))
    by (apply (bool_decide_unpack _); vm_compute; exact I).
  assert (R : ui_reachable sampleCatalog h).
  { repeat (apply ui_step; [|press]). apply ui_mount. }
  split; [exact ND|]. split; [exact R|].
  rewrite (dimmed_count sampleCatalog h ND R). reflexivity.
Defined.

(** However a user clicks, the grayed-out ids never fill the catalog:
    under a lock there are fewer of them than there are cards, the locked
    card always being left over. *)
Theorem grayed_fewer_than_cards (catalog : list Character) (h : Home) (L : Z) :
  ui_reachable catalog h →
  selectedCharacterId h = Some L →
  (size (grayedOutCards h) < length catalog)%nat.
Proof.
  intros R E.
  pose proof (cons_locked _ _ (reachable_consistent _ _
    (ui_reachable_reachable _ _ R)) L E) as HL.
  destruct (ui_reachable_ids catalog h R) as [Hl Hg].
  set (ids := list_to_set (id <$> catalog) : gset Z).
  assert (Hsub : grayedOutCards h ⊆ ids ∖ {[L]}).
  { intros y Hy. apply elem_of_difference. split.
    - apply elem_of_list_to_set. by apply Hg.
    - rewrite elem_of_singleton. intros ->. done. }
  assert (HLin : {[L]} ⊆ ids).
  { apply singleton_subseteq_l, elem_of_list_to_set. by apply Hl. }
  apply subseteq_size in Hsub. rewrite (size_difference _ _ HLin) in Hsub.
  apply subseteq_size in HLin. rewrite size_singleton in HLin, Hsub.
  pose proof (size_list_to_set_le (id <$> catalog)) as Hle.
  rewrite length_fmap in Hle. fold ids in Hle. lia.
Qed.

Lemma grayed_fewer_than_cards_witness :
  let h := step (step (step (mount sampleCatalog) (Click 5)) (Click 7)) (Click 9) in
  ui_reachable sampleCatalog h
  ∧ selectedCharacterId h = Some 5
  ∧ (size (grayedOutCards h) < length sampleCatalog)%nat.
Proof.
  intros h.
  assert (R : ui_reachable sampleCatalog h).
  { repeat (apply ui_step; [|press]). apply ui_mount. }
  split; [exact R|]. split; [reflexivity|].
  exact (grayed_fewer_than_cards sampleCatalog h 5 R eq_refl).
Defined.
